(** * maths/util.h: scalar utility functions

    A shallow embedding of the scalar helpers of the header [util.h]
    (min/max/minmax, update_minmax, sort, clamp, saturate, sgn, smooth_step,
    linear_step, power-of-two rounding, intlog2, Morton codes,
    get_barycentric, lerp, bilerp, trilerp, catmul_rom_spline, cubic_pulse,
    smooth_start and smooth_stop) and the properties the specification
    states about them.

    Modelling conventions.
    - [unsigned int] and [u64] values are integers of [Z] in [0, 2^32) and
      [0, 2^64); every operation that can leave the range in C++ (decrement,
      left shift of a [u64]) is followed by its reduction modulo the width.
    - An operation that C++ leaves undefined (a shift of an [int] by its
      full width, the cast to [int] of a value that is no [int]) has no
      result: the function returns [None].
    - A [template <class T>] function that only compares its arguments is
      embedded over an arbitrary type [T] with a boolean [<] that is a strict
      weak ordering (what [std::min] and [std::max] require of [T]).
    - A [template <class T>] function that computes with its arguments is
      embedded at the exact rationals [Q]: [+], [-], [*], [/] without
      rounding, equality of results being [Qeq].  Where a property depends
      on rounding, the function is also embedded at [T = double], in the
      module [Binary64], over the binary64 floating-point numbers with the
      operations in the order of the source; its reading over [Q] then
      carries the suffix [_exact].
    - A reference parameter that the function only writes ([T& amin],
      [u64* d]) becomes a component of the result. *)

From Stdlib Require Import ZArith QArith Qround Qabs Lia Lqa List Bool.
From Stdlib Require Import Permutation Floats.
Import ListNotations.

Local Open Scope Z_scope.

(** ** Fixed-width unsigned integers *)

Definition wrap32 (z : Z) : Z := z mod 2 ^ 32.
Definition wrap64 (z : Z) : Z := z mod 2 ^ 64.

(** [x << k] on a [u64]. *)
Definition shl64 (x k : Z) : Z := wrap64 (Z.shiftl x k).

(** ** Power-of-two rounding *)

(** The loop [while (n) { ++exponent; n >>= 1; }]; the result is the final
    [exponent], [None] when [fuel] iterations were not enough. *)
Fixpoint round_up_loop (fuel : nat) (n exponent : Z) : option Z :=
  match fuel with
  | O => None
  | S fuel' =>
      if n =? 0 then Some exponent
      else round_up_loop fuel' (Z.shiftr n 1) (exponent + 1)
  end.

(** The loop [while (n > 1) { ++exponent; n >>= 1; }]. *)
Fixpoint round_down_loop (fuel : nat) (n exponent : Z) : option Z :=
  match fuel with
  | O => None
  | S fuel' =>
      if n >? 1 then round_down_loop fuel' (Z.shiftr n 1) (exponent + 1)
      else Some exponent
  end.

(** [1 << exponent] on the 32-bit [int] 1, returned as [unsigned int].  For
    [0 <= exponent <= 31] the result is [2^exponent] (at 31 the [int] is
    [INT_MIN], which converts to [2^31]).  A shift by 32 or more, the full
    width of the type, has no defined value in C++: [None]. *)
Definition shl1_u32 (exponent : Z) : option Z :=
  if (0 <=? exponent) && (exponent <? 32)
  then Some (wrap32 (Z.shiftl 1 exponent))
  else None.

(** A 32-bit [n] is zero after at most 32 right shifts, so 33 tests of the
    loop condition always suffice. *)
Definition loop_fuel : nat := 33.

Definition round_up_to_power_of_two (n : Z) : option Z :=
  let exponent := 0 in
  let n := wrap32 (n - 1) in
  match round_up_loop loop_fuel n exponent with
  | Some exponent => shl1_u32 exponent
  | None => None
  end.

Definition round_down_to_power_of_two (n : Z) : option Z :=
  let exponent := 0 in
  match round_down_loop loop_fuel n exponent with
  | Some exponent => shl1_u32 exponent
  | None => None
  end.

(** ** Morton codes *)

Definition morton_xy2d (x y : Z) : Z :=
  let x := Z.land (Z.lor x (shl64 x 16)) 0x0000FFFF0000FFFF in
  let x := Z.land (Z.lor x (shl64 x 8)) 0x00FF00FF00FF00FF in
  let x := Z.land (Z.lor x (shl64 x 4)) 0x0F0F0F0F0F0F0F0F in
  let x := Z.land (Z.lor x (shl64 x 2)) 0x3333333333333333 in
  let x := Z.land (Z.lor x (shl64 x 1)) 0x5555555555555555 in
  let y := Z.land (Z.lor y (shl64 y 16)) 0x0000FFFF0000FFFF in
  let y := Z.land (Z.lor y (shl64 y 8)) 0x00FF00FF00FF00FF in
  let y := Z.land (Z.lor y (shl64 y 4)) 0x0F0F0F0F0F0F0F0F in
  let y := Z.land (Z.lor y (shl64 y 2)) 0x3333333333333333 in
  let y := Z.land (Z.lor y (shl64 y 1)) 0x5555555555555555 in
  Z.lor x (shl64 y 1).

(** morton_1 - extract even bits; the result is cast to [uint32_t]. *)
Definition morton_1 (x : Z) : Z :=
  let x := Z.land x 0x5555555555555555 in
  let x := Z.land (Z.lor x (Z.shiftr x 1)) 0x3333333333333333 in
  let x := Z.land (Z.lor x (Z.shiftr x 2)) 0x0F0F0F0F0F0F0F0F in
  let x := Z.land (Z.lor x (Z.shiftr x 4)) 0x00FF00FF00FF00FF in
  let x := Z.land (Z.lor x (Z.shiftr x 8)) 0x0000FFFF0000FFFF in
  let x := Z.land (Z.lor x (Z.shiftr x 16)) 0x00000000FFFFFFFF in
  wrap32 x.

Definition morton_d2xy (d : Z) : Z * Z :=
  (morton_1 d, morton_1 (Z.shiftr d 1)).

(** ** Templates that only compare: [T] with [operator<] *)

Section Comparisons.

Context {T : Type}.

(** [a < b] of the template's type; [a > b] is read as [b < a]. *)
Variable lt : T -> T -> bool.

(** [std::min(a, b)] is [(b < a) ? b : a] and [std::max(a, b)] is
    [(a < b) ? b : a]. *)
Definition std_min (a b : T) : T := if lt b a then b else a.
Definition std_max (a b : T) : T := if lt a b then b else a.

Definition min3 (a1 a2 a3 : T) : T := std_min a1 (std_min a2 a3).
Definition min4 (a1 a2 a3 a4 : T) : T :=
  std_min (std_min a1 a2) (std_min a3 a4).
Definition min5 (a1 a2 a3 a4 a5 : T) : T :=
  min3 (std_min a1 a2) (std_min a3 a4) a5.
Definition min6 (a1 a2 a3 a4 a5 a6 : T) : T :=
  min3 (std_min a1 a2) (std_min a3 a4) (std_min a5 a6).

Definition max3 (a1 a2 a3 : T) : T := std_max a1 (std_max a2 a3).
Definition max4 (a1 a2 a3 a4 : T) : T :=
  std_max (std_max a1 a2) (std_max a3 a4).
Definition max5 (a1 a2 a3 a4 a5 : T) : T :=
  max3 (std_max a1 a2) (std_max a3 a4) a5.
Definition max6 (a1 a2 a3 a4 a5 a6 : T) : T :=
  max3 (std_max a1 a2) (std_max a3 a4) (std_max a5 a6).

(** The [minmax] overloads; the result is [(amin, amax)]. *)
Definition minmax2 (a1 a2 : T) : T * T :=
  if lt a1 a2 then (a1, a2) else (a2, a1).

Definition minmax3 (a1 a2 a3 : T) : T * T :=
  if lt a1 a2 then
    if lt a1 a3 then (a1, if lt a2 a3 then a3 else a2)
    else (a3, if lt a1 a2 then a2 else a1)
  else
    if lt a2 a3 then (a2, if lt a1 a3 then a3 else a1)
    else (a3, a1).

Definition minmax4 (a1 a2 a3 a4 : T) : T * T :=
  if lt a1 a2 then
    if lt a3 a4 then (std_min a1 a3, std_max a2 a4)
    else (std_min a1 a4, std_max a2 a3)
  else
    if lt a3 a4 then (std_min a2 a3, std_max a1 a4)
    else (std_min a2 a4, std_max a1 a3).

Definition minmax5 (a1 a2 a3 a4 a5 : T) : T * T :=
  (min5 a1 a2 a3 a4 a5, max5 a1 a2 a3 a4 a5).

Definition minmax6 (a1 a2 a3 a4 a5 a6 : T) : T * T :=
  (min6 a1 a2 a3 a4 a5 a6, max6 a1 a2 a3 a4 a5 a6).

(** [update_minmax(a1, amin, amax)]: the pair after the call. *)
Definition update_minmax (a1 amin amax : T) : T * T :=
  if lt a1 amin then (a1, amax)
  else if lt amax a1 then (amin, a1)
  else (amin, amax).

Definition clamp (a lower upper : T) : T :=
  if lt a lower then lower
  else if lt upper a then upper
  else a.

End Comparisons.

(** ** Templates that compute: [T] as the rationals *)

Local Open Scope Q_scope.

(** [smooth_step(r)] read in exact arithmetic: the function of a real [r]
    that the floating-point code approximates. *)
Definition smooth_step_exact (r : Q) : Q :=
  if Qlt_le_dec r 0 then 0
  else if Qlt_le_dec 1 r then 1
  else r * r * r * (10 + r * (-15 + r * 6)).



Definition lerp (value0 value1 f : Q) : Q :=
  (1 - f) * value0 + f * value1.


(** [smooth_stop5] as the later copy of the header has it
    (src/unnamed/part_000, lines 642-647). *)
Definition smooth_stop5 (t b c d : Q) : Q :=
  let t := t / d - 1 in
  c * (t * t * t * t * t + 1) + b.

(** The copy in src/util.h (lines 533-538); every other function modelled
    here has the same body in both copies. *)
Module UtilH.

Definition smooth_stop5 (t b c d : Q) : Q :=
  let t := t / d - 1 in
  - c * (t * t * t * t * t + 1) + b.

End UtilH.

(** ** Templates that compute: [T] as [double] *)

Module Binary64.

Local Open Scope float_scope.

(** [smooth_step(r)] at [T = double]; the integer literals of the source
    convert to [double]. *)
Definition smooth_step (r : float) : float :=
  if r <? 0 then 0
  else if 1 <? r then 1
  else r * r * r * (10 + r * (-15 + r * 6)).


End Binary64.

(** ** The other helpers of the header *)

Section Sorting.

Context {T : Type}.
Variable lt : T -> T -> bool.

(** [sort(a, b, c)]: the triple [(a, b, c)] after the call. *)
Definition sort (a b c : T) : T * T * T :=
  if lt a b then
    if lt a c then
      if lt c b then (a, c, b) else (a, b, c)
    else (c, a, b)
  else
    if lt b c then
      if lt a c then (b, a, c) else (b, c, a)
    else (c, b, a).

End Sorting.

(** [intlog2(int x)]: the loop [while (x) { x >>= 1; ++exp; }] on a signed
    [x]; the right shift of a negative [int] is arithmetic, as [Z.shiftr]. *)
Fixpoint intlog2_loop (fuel : nat) (x exp : Z) : option Z :=
  match fuel with
  | O => None
  | S fuel' =>
      if (x =? 0)%Z then Some exp
      else intlog2_loop fuel' (Z.shiftr x 1) (exp + 1)%Z
  end.

Definition intlog2 (x : Z) : option Z :=
  let exp := (-1)%Z in
  intlog2_loop loop_fuel x exp.

(** [a < b] and [a <= b] of the rationals as booleans. *)
Definition Qltb (a b : Q) : bool := if Qlt_le_dec a b then true else false.

Definition sgn (val : Q) : Q :=
  (if Qltb 0 val then 1 else 0) - (if Qltb val 0 then 1 else 0).

Definition saturate (v : Q) : Q :=
  let v := std_max Qltb v 0 in
  let v := std_min Qltb v 1 in
  v.


Definition bilerp (v00 v10 v01 v11 fx fy : Q) : Q :=
  lerp (lerp v00 v10 fx) (lerp v01 v11 fx) fy.

Definition trilerp (v000 v100 v010 v110 v001 v101 v011 v111 fx fy fz : Q)
  : Q :=
  lerp (bilerp v000 v100 v010 v110 fx fy)
       (bilerp v001 v101 v011 v111 fx fy) fz.

Definition cubic_pulse (c w x : Q) : Q :=
  let x := Qabs (x - c) in
  if Qltb w x then 0
  else
    let x := x / w in
    1 - x * x * (3 - 2 * x).

Definition smooth_start2 (t b c d : Q) : Q :=
  let t := t / d in
  c * t * t + b.

Definition smooth_start3 (t b c d : Q) : Q :=
  let t := t / d in
  c * t * t * t + b.

Definition smooth_start4 (t b c d : Q) : Q :=
  let t := t / d in
  c * t * t * t * t + b.

Definition smooth_start5 (t b c d : Q) : Q :=
  let t := t / d in
  c * t * t * t * t * t + b.

(** [smooth_stop2] as src/unnamed/part_000 has it; the copy of src/util.h
    reads [t*t(t - 2)], which is no expression of a numeric [T]. *)
Definition smooth_stop2 (t b c d : Q) : Q :=
  let t := t / d in
  - c * t * (t - 2) + b.

Definition smooth_stop3 (t b c d : Q) : Q :=
  let t := t / d - 1 in
  c * (t * t * t + 1) + b.

Definition smooth_stop4 (t b c d : Q) : Q :=
  let t := t / d - 1 in
  - c * (t * t * t * t - 1) + b.

(** * Vocabulary of the properties *)

Local Open Scope Z_scope.

(** A number as the function from positions to bits. *)
Definition bits : Type := Z -> bool.

Definition spread_stage (k M : Z) (b : bits) : bits :=
  fun n => if Z.testbit M n then b n || ((n <? 64) && b (n - k)) else false.

Definition gather_stage (k M : Z) (b : bits) : bits :=
  fun n => if Z.testbit M n then b n || b (n + k) else false.

Definition low32 (b : bits) : bits :=
  fun n => if (0 <=? n) && (n <? 32) then b n else false.

(** The bits of the spread coordinate, of the code, and of the decoded
    coordinates, as functions of the bits of the inputs. *)
Definition spread_bits (b : bits) : bits :=
  spread_stage 1 0x5555555555555555
    (spread_stage 2 0x3333333333333333
      (spread_stage 4 0x0F0F0F0F0F0F0F0F
        (spread_stage 8 0x00FF00FF00FF00FF
          (spread_stage 16 0x0000FFFF0000FFFF b)))).

Definition code_bits (bx by_ : bits) : bits :=
  fun n => spread_bits bx n || ((n <? 64) && spread_bits by_ (n - 1)).

Definition morton_1_bits (b : bits) : bits :=
  fun n => (n <? 32) &&
    gather_stage 16 0x00000000FFFFFFFF
      (gather_stage 8 0x0000FFFF0000FFFF
        (gather_stage 4 0x00FF00FF00FF00FF
          (gather_stage 2 0x0F0F0F0F0F0F0F0F
            (gather_stage 1 0x3333333333333333
              (fun m => if Z.testbit 0x5555555555555555 m then b m else false))))) n.

Definition shr1_bits (b : bits) : bits :=
  fun n => if 0 <=? n then b (n + 1) else false.

(** [operator<] of [T] is a strict weak ordering. *)
Record StrictWeakOrder {T : Type} (lt : T -> T -> bool) : Prop := {
  lt_irrefl : forall a, lt a a = false;
  lt_trans : forall a b c, lt a b = true -> lt b c = true -> lt a c = true;
  lt_incomp : forall a b c, lt a b = false -> lt b c = false -> lt a c = false
}.

Definition le_of {T : Type} (lt : T -> T -> bool) (a b : T) : Prop :=
  lt b a = false.

Definition is_min_of {T : Type} (lt : T -> T -> bool) (m : T) (l : list T) : Prop :=
  In m l /\ forall x, In x l -> le_of lt m x.

Definition is_max_of {T : Type} (lt : T -> T -> bool) (m : T) (l : list T) : Prop :=
  In m l /\ forall x, In x l -> le_of lt x m.

Local Open Scope Q_scope.

(** The polynomial of [smooth_step] as the specification writes it,
    [10r^3 - 15r^4 + 6r^5]; the source has it in Horner form. *)
Definition smooth_poly (r : Q) : Q := 10 * r ^ 3 - 15 * r ^ 4 + 6 * r ^ 5.

Local Open Scope Z_scope.

(** [m] is the first of the smallest elements of [l]: strictly below
    every element before it, not above any element after it. *)
Definition is_first_min_of {T : Type} (lt : T -> T -> bool) (m : T) (l : list T) : Prop :=
  exists l1 l2, l = l1 ++ m :: l2
    /\ (forall x, In x l1 -> lt m x = true)
    /\ (forall x, In x l2 -> le_of lt m x).

(** [m] is the first of the largest elements of [l]. *)
Definition is_first_max_of {T : Type} (lt : T -> T -> bool) (m : T) (l : list T) : Prop :=
  exists l1 l2, l = l1 ++ m :: l2
    /\ (forall x, In x l1 -> lt x m = true)
    /\ (forall x, In x l2 -> le_of lt x m).

(** [update_minmax(a1, amin, amax)] called for each value [a1] of [l] in
    turn, on the same pair. *)
Definition update_minmax_all {T : Type} (lt : T -> T -> bool)
  (l : list T) (amin amax : T) : T * T :=
  fold_left (fun mm a1 => update_minmax lt a1 (fst mm) (snd mm)) l (amin, amax).

(** The number of binary digits of [n]. *)
Definition bit_length (n : Z) : Z := if n =? 0 then 0 else Z.log2 n + 1.

(** * Properties *)

(** ** Power-of-two rounding *)

Lemma wrap32_range (z : Z) : 0 <= wrap32 z < 2 ^ 32.
Proof. unfold wrap32. apply Z.mod_pos_bound. reflexivity. Qed.

Lemma shiftr1_bound (n k : Z) :
  0 <= k -> 0 <= n < 2 ^ (k + 1) -> 0 <= Z.shiftr n 1 < 2 ^ k.
Proof.
  intros Hk [Hn0 Hn]. rewrite Z.shiftr_div_pow2 by lia.
  change (2 ^ 1) with 2.
  replace (k + 1) with (Z.succ k) in Hn by lia.
  rewrite Z.pow_succ_r in Hn by assumption.
  split.
  - apply Z.div_pos; lia.
  - apply Z.div_lt_upper_bound; lia.
Qed.

(** Both loops stop: [k + 1] tests of the condition are enough for an
    [n] below [2^k]. *)
Lemma round_up_loop_terminates (k : nat) :
  forall n e, 0 <= n < 2 ^ Z.of_nat k ->
    exists e', round_up_loop (S k) n e = Some e'.
Proof.
  induction k as [|k IH]; intros n e Hn.
  - assert (n = 0) by (change (2 ^ Z.of_nat 0) with 1 in Hn; lia).
    subst n. exists e. reflexivity.
  - cbn [round_up_loop]. destruct (n =? 0) eqn:E.
    + exists e. reflexivity.
    + apply IH. apply shiftr1_bound; [lia|].
      replace (Z.of_nat k + 1) with (Z.of_nat (S k)) by lia. assumption.
Qed.

Lemma round_down_loop_terminates (k : nat) :
  forall n e, 0 <= n < 2 ^ Z.of_nat k ->
    exists e', round_down_loop (S k) n e = Some e'.
Proof.
  induction k as [|k IH]; intros n e Hn.
  - assert (n = 0) by (change (2 ^ Z.of_nat 0) with 1 in Hn; lia).
    subst n. exists e. reflexivity.
  - cbn [round_down_loop]. destruct (n >? 1) eqn:E.
    + apply IH. apply shiftr1_bound; [lia|].
      replace (Z.of_nat k + 1) with (Z.of_nat (S k)) by lia. assumption.
    + exists e. reflexivity.
Qed.

(** The examples of the specification. *)
Example round_up_5 : round_up_to_power_of_two 5 = Some 8.
Proof. reflexivity. Qed.

Example round_up_8 : round_up_to_power_of_two 8 = Some 8.
Proof. reflexivity. Qed.

Example round_down_5 : round_down_to_power_of_two 5 = Some 4.
Proof. reflexivity. Qed.

(** C4 (amended): round_up_to_power_of_two(0) underflows.  The decrement
    wraps 0 to 2^32 - 1 and the loop leaves exponent = 32; the return
    expression 1 << 32 then shifts a 32-bit int by its full width, which
    has no defined value, so the call has no defined result;
    round_down_to_power_of_two(0) fails its loop condition at the first
    test (one unit of fuel is enough, exponent stays 0) and returns 1. *)
Theorem round_up_to_power_of_two_zero_underflows :
  wrap32 (0 - 1) = 2 ^ 32 - 1
  /\ round_up_loop loop_fuel (wrap32 (0 - 1)) 0 = Some 32
  /\ shl1_u32 32 = None
  /\ round_up_to_power_of_two 0 = None
  /\ round_down_loop 1 0 0 = Some 0
  /\ round_down_to_power_of_two 0 = Some 1.
Proof.
  split; [reflexivity|]. split; [reflexivity|]. split; [reflexivity|].
  split; [reflexivity|]. split; reflexivity.
Qed.

(** The value that C4 names, 1 shifted left by 32 and reduced modulo 2^32,
    is not what round_up_to_power_of_two(0) returns: the call returns no
    value. *)
Lemma round_up_to_power_of_two_zero_no_value :
  round_up_to_power_of_two 0 = None
  /\ round_up_to_power_of_two 0 <> Some (wrap32 (Z.shiftl 1 32)).
Proof. split; [reflexivity | discriminate]. Qed.
(** ** Morton codes *)

Lemma testbit_shl64 (x k n : Z) :
  0 <= k -> Z.testbit (shl64 x k) n = (n <? 64) && Z.testbit x (n - k).
Proof.
  intros Hk. unfold shl64, wrap64.
  destruct (Z.ltb_spec n 0) as [Hn|Hn].
  - rewrite !Z.testbit_neg_r by lia. apply eq_sym, andb_false_r.
  - destruct (Z.ltb_spec n 64) as [H|H].
    + rewrite Z.mod_pow2_bits_low by lia. apply Z.shiftl_spec. assumption.
    + apply Z.mod_pow2_bits_high. lia.
Qed.

Lemma testbit_wrap32 (x n : Z) :
  Z.testbit (wrap32 x) n = (n <? 32) && Z.testbit x n.
Proof.
  unfold wrap32.
  destruct (Z.ltb_spec n 0) as [Hn|Hn].
  - rewrite !Z.testbit_neg_r by lia. apply eq_sym, andb_false_r.
  - destruct (Z.ltb_spec n 32) as [H|H].
    + apply Z.mod_pow2_bits_low. lia.
    + apply Z.mod_pow2_bits_high. lia.
Qed.

Lemma testbit_spread_stage (a k M n : Z) :
  0 <= k ->
  Z.testbit (Z.land (Z.lor a (shl64 a k)) M) n
  = spread_stage k M (Z.testbit a) n.
Proof.
  intros Hk. unfold spread_stage.
  rewrite Z.land_spec, Z.lor_spec, testbit_shl64 by assumption.
  destruct (Z.testbit M n);
    [apply andb_true_r | apply andb_false_r].
Qed.

Lemma testbit_gather_stage (a k M n : Z) :
  Z.testbit (Z.land (Z.lor a (Z.shiftr a k)) M) n
  = gather_stage k M (Z.testbit a) n.
Proof.
  unfold gather_stage.
  destruct (Z.ltb_spec n 0) as [Hn|Hn].
  - rewrite !Z.testbit_neg_r by lia. reflexivity.
  - rewrite Z.land_spec, Z.lor_spec, Z.shiftr_spec by assumption.
    destruct (Z.testbit M n);
      [apply andb_true_r | apply andb_false_r].
Qed.

Lemma spread_stage_ext (k M : Z) (b b' : bits) :
  (forall n, b n = b' n) ->
  forall n, spread_stage k M b n = spread_stage k M b' n.
Proof. intros E n. unfold spread_stage. rewrite !E. reflexivity. Qed.

Lemma gather_stage_ext (k M : Z) (b b' : bits) :
  (forall n, b n = b' n) ->
  forall n, gather_stage k M b n = gather_stage k M b' n.
Proof. intros E n. unfold gather_stage. rewrite !E. reflexivity. Qed.

Lemma testbit_low32 (x : Z) :
  0 <= x < 2 ^ 32 -> forall n, Z.testbit x n = low32 (Z.testbit x) n.
Proof.
  intros Hx n. unfold low32.
  destruct (Z.leb_spec 0 n) as [Hn|Hn]; cbn [andb].
  - destruct (Z.ltb_spec n 32) as [H|H]; [reflexivity|].
    rewrite <- (Z.mod_small x (2 ^ 32)) by assumption.
    apply Z.mod_pow2_bits_high. lia.
  - apply Z.testbit_neg_r. assumption.
Qed.

Lemma testbit_morton_xy2d (x y n : Z) :
  Z.testbit (morton_xy2d x y) n
  = code_bits (Z.testbit x) (Z.testbit y) n.
Proof.
  unfold morton_xy2d, code_bits, spread_bits. cbv zeta.
  rewrite Z.lor_spec, testbit_shl64 by lia.
  f_equal; [|f_equal];
    repeat first [ rewrite testbit_spread_stage by lia
                 | apply spread_stage_ext; intro ];
    reflexivity.
Qed.

Lemma testbit_morton_1 (d : Z) (b : bits) :
  (forall n, Z.testbit d n = b n) ->
  forall n, Z.testbit (morton_1 d) n = morton_1_bits b n.
Proof.
  intros E n. unfold morton_1, morton_1_bits. cbv zeta.
  rewrite testbit_wrap32. f_equal.
  repeat (rewrite testbit_gather_stage; apply gather_stage_ext; intro).
  rewrite Z.land_spec, E.
  destruct (Z.testbit _ _); [apply andb_true_r | apply andb_false_r].
Qed.

Lemma spread_bits_ext (b b' : bits) :
  (forall n, b n = b' n) -> forall n, spread_bits b n = spread_bits b' n.
Proof.
  intros E. unfold spread_bits.
  do 5 (apply spread_stage_ext; try assumption).
Qed.

Lemma code_bits_ext (bx bx' by_ by_' : bits) :
  (forall n, bx n = bx' n) -> (forall n, by_ n = by_' n) ->
  forall n, code_bits bx by_ n = code_bits bx' by_' n.
Proof.
  intros Ex Ey n. unfold code_bits.
  rewrite (spread_bits_ext bx bx' Ex), (spread_bits_ext by_ by_' Ey).
  reflexivity.
Qed.

Lemma testbit_morton_code (x y : Z) :
  0 <= x < 2 ^ 32 -> 0 <= y < 2 ^ 32 ->
  forall n, Z.testbit (morton_xy2d x y) n
            = code_bits (low32 (Z.testbit x)) (low32 (Z.testbit y)) n.
Proof.
  intros Hx Hy n. rewrite testbit_morton_xy2d.
  apply code_bits_ext; apply testbit_low32; assumption.
Qed.

Lemma bits_below_32 (P : Z -> Prop) :
  (forall k : nat, (k < 32)%nat -> P (Z.of_nat k)) ->
  forall n, 0 <= n < 32 -> P n.
Proof.
  intros H n Hn. rewrite <- (Z2Nat.id n) by lia. apply H. lia.
Qed.

(** Bit [n] of the even-bit extraction of a code is bit [n] of its first
    coordinate, whatever the bits [f] and [g] of the coordinates are:
    checked by evaluation at each of the 32 positions. *)
Lemma decode_x_bits (f g : bits) (n : Z) :
  0 <= n < 32 ->
  morton_1_bits (code_bits (low32 f) (low32 g)) n = f n.
Proof.
  revert n. apply bits_below_32. intros k Hk.
  do 32 (destruct k as [|k]; [ vm_compute; destruct (f _); reflexivity | ]).
  exfalso; lia.
Qed.

Lemma decode_y_bits (f g : bits) (n : Z) :
  0 <= n < 32 ->
  morton_1_bits (shr1_bits (code_bits (low32 f) (low32 g))) n = g n.
Proof.
  revert n. apply bits_below_32. intros k Hk.
  do 32 (destruct k as [|k]; [ vm_compute; destruct (g _); reflexivity | ]).
  exfalso; lia.
Qed.

Lemma testbit_shr1 (d n : Z) :
  Z.testbit (Z.shiftr d 1) n = shr1_bits (Z.testbit d) n.
Proof.
  unfold shr1_bits. destruct (Z.leb_spec 0 n) as [Hn|Hn].
  - apply Z.shiftr_spec. assumption.
  - apply Z.testbit_neg_r. assumption.
Qed.

Lemma morton_1_high_bits (d n : Z) :
  32 <= n -> Z.testbit (morton_1 d) n = false.
Proof.
  intros Hn. unfold morton_1. cbv zeta. rewrite testbit_wrap32.
  destruct (Z.ltb_spec n 32); [lia | reflexivity].
Qed.

Lemma morton_1_range (d : Z) : 0 <= morton_1 d < 2 ^ 32.
Proof. unfold morton_1. cbv zeta. apply wrap32_range. Qed.

Lemma morton_1_even_bits (x y : Z) :
  0 <= x < 2 ^ 32 -> 0 <= y < 2 ^ 32 -> morton_1 (morton_xy2d x y) = x.
Proof.
  intros Hx Hy. apply Z.bits_inj'. intros n Hn.
  destruct (Z.lt_ge_cases n 32) as [H|H].
  - rewrite (testbit_morton_1 _ _ (testbit_morton_code x y Hx Hy)).
    apply decode_x_bits. lia.
  - rewrite morton_1_high_bits by assumption.
    rewrite (testbit_low32 x Hx). unfold low32.
    destruct (Z.ltb_spec n 32); [lia|]. rewrite andb_false_r. reflexivity.
Qed.

Lemma morton_1_odd_bits (x y : Z) :
  0 <= x < 2 ^ 32 -> 0 <= y < 2 ^ 32 ->
  morton_1 (Z.shiftr (morton_xy2d x y) 1) = y.
Proof.
  intros Hx Hy. apply Z.bits_inj'. intros n Hn.
  destruct (Z.lt_ge_cases n 32) as [H|H].
  - rewrite (testbit_morton_1 _
               (shr1_bits (code_bits (low32 (Z.testbit x))
                                     (low32 (Z.testbit y))))).
    + apply decode_y_bits. lia.
    + intros m. rewrite testbit_shr1. unfold shr1_bits.
      destruct (0 <=? m); [|reflexivity].
      apply testbit_morton_code; assumption.
  - rewrite morton_1_high_bits by assumption.
    rewrite (testbit_low32 y Hy). unfold low32.
    destruct (Z.ltb_spec n 32); [lia|]. rewrite andb_false_r. reflexivity.
Qed.

(** C1: Morton round trip.  For coordinates x and y below 2^32, decoding
    the code of (x, y) gives back (x, y). *)
Theorem morton_roundtrip (x y : Z) :
  0 <= x < 2 ^ 32 -> 0 <= y < 2 ^ 32 ->
  morton_d2xy (morton_xy2d x y) = (x, y).
Proof.
  intros Hx Hy. unfold morton_d2xy.
  rewrite morton_1_even_bits, morton_1_odd_bits by assumption.
  reflexivity.
Qed.

Lemma morton_roundtrip_witness :
  (0 <= 0xDEADBEEF < 2 ^ 32 /\ 0 <= 0x12345678 < 2 ^ 32)
  /\ morton_d2xy (morton_xy2d 0xDEADBEEF 0x12345678)
     = (0xDEADBEEF, 0x12345678).
Proof.
  assert (Hx : 0 <= 0xDEADBEEF < 2 ^ 32) by (split; [discriminate | reflexivity]).
  assert (Hy : 0 <= 0x12345678 < 2 ^ 32) by (split; [discriminate | reflexivity]).
  split; [split; assumption | exact (morton_roundtrip _ _ Hx Hy)].
Defined.

(** The bound on the coordinates is needed: bit 32 of [x] is lost. *)
Example morton_roundtrip_needs_32_bits :
  morton_d2xy (morton_xy2d (2 ^ 32) 1) = (65536, 1).
Proof. reflexivity. Qed.

(** ** Comparisons *)

Section ComparisonProps.

Context {T : Type} (lt : T -> T -> bool).
Hypothesis lt_swo : StrictWeakOrder lt.

Local Notation "a <== b" := (le_of lt a b) (at level 70, no associativity).

Lemma swo_le_refl (a : T) : a <== a.
Proof. apply (lt_irrefl lt lt_swo). Qed.

Lemma swo_le_trans (a b c : T) : a <== b -> b <== c -> a <== c.
Proof. unfold le_of. intros Hab Hbc. exact (lt_incomp lt lt_swo c b a Hbc Hab). Qed.

Lemma swo_lt_le (a b : T) : lt a b = true -> a <== b.
Proof.
  unfold le_of. intros Hab. destruct (lt b a) eqn:Hba; [|reflexivity].
  pose proof (lt_trans lt lt_swo a b a Hab Hba) as H.
  rewrite (lt_irrefl lt lt_swo) in H. discriminate.
Qed.

Lemma swo_lt_le_trans (a b c : T) : lt a b = true -> b <== c -> lt a c = true.
Proof.
  unfold le_of. intros Hab Hbc. destruct (lt a c) eqn:Hac; [reflexivity|].
  pose proof (lt_incomp lt lt_swo a c b Hac Hbc). congruence.
Qed.

Lemma swo_le_lt_trans (a b c : T) : a <== b -> lt b c = true -> lt a c = true.
Proof.
  unfold le_of. intros Hab Hbc. destruct (lt a c) eqn:Hac; [reflexivity|].
  pose proof (lt_incomp lt lt_swo b a c Hab Hac). congruence.
Qed.

(** Closes a goal [a <== b] from the comparisons in the context. *)
Ltac order :=
  unfold le_of in *;
  solve [ assumption
        | apply (lt_irrefl lt lt_swo)
        | apply swo_lt_le; assumption
        | eapply swo_le_trans; [eassumption|];
          first [assumption | apply swo_lt_le; assumption]
        | eapply swo_le_trans; [apply swo_lt_le; eassumption|];
          first [assumption | apply swo_lt_le; assumption] ].

Lemma std_min_is_min (m1 m2 : T) (l1 l2 : list T) :
  is_min_of lt m1 l1 -> is_min_of lt m2 l2 ->
  is_min_of lt (std_min lt m1 m2) (l1 ++ l2).
Proof.
  intros [I1 L1] [I2 L2]. unfold std_min.
  destruct (lt m2 m1) eqn:E; split.
  - apply in_or_app. right. assumption.
  - intros x Hx. apply in_app_or in Hx. destruct Hx as [Hx|Hx].
    + apply swo_le_trans with m1; [apply swo_lt_le; assumption | apply L1; assumption].
    + apply L2. assumption.
  - apply in_or_app. left. assumption.
  - intros x Hx. apply in_app_or in Hx. destruct Hx as [Hx|Hx].
    + apply L1. assumption.
    + apply swo_le_trans with m2; [exact E | apply L2; assumption].
Qed.

Lemma std_max_is_max (m1 m2 : T) (l1 l2 : list T) :
  is_max_of lt m1 l1 -> is_max_of lt m2 l2 ->
  is_max_of lt (std_max lt m1 m2) (l1 ++ l2).
Proof.
  intros [I1 L1] [I2 L2]. unfold std_max.
  destruct (lt m1 m2) eqn:E; split.
  - apply in_or_app. right. assumption.
  - intros x Hx. apply in_app_or in Hx. destruct Hx as [Hx|Hx].
    + apply swo_le_trans with m1; [apply L1; assumption | apply swo_lt_le; assumption].
    + apply L2. assumption.
  - apply in_or_app. left. assumption.
  - intros x Hx. apply in_app_or in Hx. destruct Hx as [Hx|Hx].
    + apply L1. assumption.
    + apply swo_le_trans with m2; [apply L2; assumption | exact E].
Qed.

Lemma is_min_single (a : T) : is_min_of lt a [a].
Proof.
  split; [left; reflexivity|]. intros x [<-|[]]. apply swo_le_refl.
Qed.

Lemma is_max_single (a : T) : is_max_of lt a [a].
Proof.
  split; [left; reflexivity|]. intros x [<-|[]]. apply swo_le_refl.
Qed.

Lemma std_min2 (a1 a2 : T) : is_min_of lt (std_min lt a1 a2) [a1; a2].
Proof. apply (std_min_is_min a1 a2 [a1] [a2]); apply is_min_single. Qed.

Lemma std_max2 (a1 a2 : T) : is_max_of lt (std_max lt a1 a2) [a1; a2].
Proof. apply (std_max_is_max a1 a2 [a1] [a2]); apply is_max_single. Qed.

Lemma min3_is_min (m1 m2 m3 : T) (l1 l2 l3 : list T) :
  is_min_of lt m1 l1 -> is_min_of lt m2 l2 -> is_min_of lt m3 l3 ->
  is_min_of lt (min3 lt m1 m2 m3) (l1 ++ l2 ++ l3).
Proof.
  intros H1 H2 H3. unfold min3.
  apply std_min_is_min; [|apply std_min_is_min]; assumption.
Qed.

Lemma max3_is_max (m1 m2 m3 : T) (l1 l2 l3 : list T) :
  is_max_of lt m1 l1 -> is_max_of lt m2 l2 -> is_max_of lt m3 l3 ->
  is_max_of lt (max3 lt m1 m2 m3) (l1 ++ l2 ++ l3).
Proof.
  intros H1 H2 H3. unfold max3.
  apply std_max_is_max; [|apply std_max_is_max]; assumption.
Qed.

Lemma min5_is_min (a1 a2 a3 a4 a5 : T) :
  is_min_of lt (min5 lt a1 a2 a3 a4 a5) [a1; a2; a3; a4; a5].
Proof.
  apply (min3_is_min _ _ _ [a1; a2] [a3; a4] [a5]);
    first [apply std_min2 | apply is_min_single].
Qed.

Lemma max5_is_max (a1 a2 a3 a4 a5 : T) :
  is_max_of lt (max5 lt a1 a2 a3 a4 a5) [a1; a2; a3; a4; a5].
Proof.
  apply (max3_is_max _ _ _ [a1; a2] [a3; a4] [a5]);
    first [apply std_max2 | apply is_max_single].
Qed.

Lemma min6_is_min (a1 a2 a3 a4 a5 a6 : T) :
  is_min_of lt (min6 lt a1 a2 a3 a4 a5 a6) [a1; a2; a3; a4; a5; a6].
Proof.
  apply (min3_is_min _ _ _ [a1; a2] [a3; a4] [a5; a6]); apply std_min2.
Qed.

Lemma max6_is_max (a1 a2 a3 a4 a5 a6 : T) :
  is_max_of lt (max6 lt a1 a2 a3 a4 a5 a6) [a1; a2; a3; a4; a5; a6].
Proof.
  apply (max3_is_max _ _ _ [a1; a2] [a3; a4] [a5; a6]); apply std_max2.
Qed.

(** Goals left by a case analysis of nested comparisons. *)
Ltac bound_goal :=
  split;
  [ cbn [In]; tauto
  | intros x Hx; cbn [In] in Hx;
    repeat (destruct Hx as [Hx|Hx]; [subst x; order|]); contradiction ].

Lemma minmax2_spec (a1 a2 : T) :
  is_min_of lt (fst (minmax2 lt a1 a2)) [a1; a2]
  /\ is_max_of lt (snd (minmax2 lt a1 a2)) [a1; a2].
Proof.
  unfold minmax2. destruct (lt a1 a2) eqn:E12; cbn [fst snd];
    split; bound_goal.
Qed.

Lemma minmax3_spec (a1 a2 a3 : T) :
  is_min_of lt (fst (minmax3 lt a1 a2 a3)) [a1; a2; a3]
  /\ is_max_of lt (snd (minmax3 lt a1 a2 a3)) [a1; a2; a3].
Proof.
  unfold minmax3.
  destruct (lt a1 a2) eqn:E12; destruct (lt a1 a3) eqn:E13;
    destruct (lt a2 a3) eqn:E23; cbn [fst snd]; split; bound_goal.
Qed.

Lemma minmax4_spec (a1 a2 a3 a4 : T) :
  is_min_of lt (fst (minmax4 lt a1 a2 a3 a4)) [a1; a2; a3; a4]
  /\ is_max_of lt (snd (minmax4 lt a1 a2 a3 a4)) [a1; a2; a3; a4].
Proof.
  unfold minmax4, std_min, std_max.
  destruct (lt a1 a2) eqn:E12; destruct (lt a3 a4) eqn:E34; cbn [fst snd];
    split;
    match goal with
    | |- context [if lt ?a ?b then _ else _] => destruct (lt a b) eqn:E
    end; bound_goal.
Qed.

(** C3: every minmax overload, of 2 to 6 arguments, sets amin to the
    minimum of its arguments and amax to their maximum: the nested
    comparisons of the 2-, 3- and 4-argument overloads and the 5- and
    6-argument overloads that call the n-ary min and max alike. *)
Theorem minmax_is_minimum_maximum :
  (forall a1 a2,
      is_min_of lt (fst (minmax2 lt a1 a2)) [a1; a2]
      /\ is_max_of lt (snd (minmax2 lt a1 a2)) [a1; a2])
  /\ (forall a1 a2 a3,
      is_min_of lt (fst (minmax3 lt a1 a2 a3)) [a1; a2; a3]
      /\ is_max_of lt (snd (minmax3 lt a1 a2 a3)) [a1; a2; a3])
  /\ (forall a1 a2 a3 a4,
      is_min_of lt (fst (minmax4 lt a1 a2 a3 a4)) [a1; a2; a3; a4]
      /\ is_max_of lt (snd (minmax4 lt a1 a2 a3 a4)) [a1; a2; a3; a4])
  /\ (forall a1 a2 a3 a4 a5,
      is_min_of lt (fst (minmax5 lt a1 a2 a3 a4 a5)) [a1; a2; a3; a4; a5]
      /\ is_max_of lt (snd (minmax5 lt a1 a2 a3 a4 a5))
                   [a1; a2; a3; a4; a5])
  /\ (forall a1 a2 a3 a4 a5 a6,
      is_min_of lt (fst (minmax6 lt a1 a2 a3 a4 a5 a6))
                [a1; a2; a3; a4; a5; a6]
      /\ is_max_of lt (snd (minmax6 lt a1 a2 a3 a4 a5 a6))
                   [a1; a2; a3; a4; a5; a6]).
Proof.
  split; [exact minmax2_spec|].
  split; [exact minmax3_spec|].
  split; [exact minmax4_spec|].
  split; intros; unfold minmax5, minmax6; cbn [fst snd]; split.
  - apply min5_is_min.
  - apply max5_is_max.
  - apply min6_is_min.
  - apply max6_is_max.
Qed.

(** C7: with amin <= amax before the call, update_minmax moves no bound
    inward (new amin <= old amin, old amax <= new amax) and the new pair
    includes the value (new amin <= a1 <= new amax). *)
Theorem update_minmax_extends (a1 amin amax : T) :
  amin <== amax ->
  fst (update_minmax lt a1 amin amax) <== amin
  /\ amax <== snd (update_minmax lt a1 amin amax)
  /\ fst (update_minmax lt a1 amin amax) <== a1
  /\ a1 <== snd (update_minmax lt a1 amin amax).
Proof.
  intros Hmm. unfold update_minmax.
  destruct (lt a1 amin) eqn:Elo; [|destruct (lt amax a1) eqn:Ehi];
    cbn [fst snd]; repeat split; order.
Qed.

(** C6: with lower <= upper, clamp returns a value of [lower, upper]; it
    returns a itself when lower <= a <= upper, lower when a < lower and
    upper when a > upper. *)
Theorem clamp_within_bounds (a lower upper : T) :
  lower <== upper ->
  (lower <== clamp lt a lower upper /\ clamp lt a lower upper <== upper)
  /\ (lower <== a -> a <== upper -> clamp lt a lower upper = a)
  /\ (lt a lower = true -> clamp lt a lower upper = lower)
  /\ (lt upper a = true -> clamp lt a lower upper = upper).
Proof.
  intros Hlu. unfold clamp.
  destruct (lt a lower) eqn:Elo; [|destruct (lt upper a) eqn:Ehi].
  - repeat split; try order; try reflexivity.
    + unfold le_of. intros H. congruence.
    + intros Hua. pose proof (swo_lt_le_trans _ _ _ Elo Hlu) as H.
      pose proof (lt_trans lt lt_swo _ _ _ H Hua) as H'.
      rewrite (lt_irrefl lt lt_swo) in H'. discriminate.
  - repeat split; try order; try reflexivity; try discriminate.
    unfold le_of. intros _ H. congruence.
  - repeat split; try order; try reflexivity; discriminate.
Qed.

End ComparisonProps.

Lemma Z_ltb_swo : StrictWeakOrder Z.ltb.
Proof.
  split.
  - intros a. apply Z.ltb_irrefl.
  - intros a b c Hab Hbc. apply Z.ltb_lt in Hab, Hbc. apply Z.ltb_lt. lia.
  - intros a b c Hab Hbc. apply Z.ltb_ge in Hab, Hbc. apply Z.ltb_ge. lia.
Qed.

Lemma minmax_is_minimum_maximum_witness :
  StrictWeakOrder Z.ltb
  /\ is_min_of Z.ltb (fst (minmax6 Z.ltb 3 1 2 7 (-1) 0)) [3; 1; 2; 7; -1; 0]%Z
  /\ is_max_of Z.ltb (snd (minmax6 Z.ltb 3 1 2 7 (-1) 0)) [3; 1; 2; 7; -1; 0]%Z.
Proof.
  split; [exact Z_ltb_swo|].
  exact (proj2 (proj2 (proj2 (proj2
           (minmax_is_minimum_maximum Z.ltb Z_ltb_swo)))) 3 1 2 7 (-1) 0)%Z.
Defined.

Lemma update_minmax_extends_witness :
  (StrictWeakOrder Z.ltb /\ le_of Z.ltb 1 3)%Z
  /\ (le_of Z.ltb (fst (update_minmax Z.ltb 5 1 3)) 1
      /\ le_of Z.ltb 3 (snd (update_minmax Z.ltb 5 1 3))
      /\ le_of Z.ltb (fst (update_minmax Z.ltb 5 1 3)) 5
      /\ le_of Z.ltb 5 (snd (update_minmax Z.ltb 5 1 3)))%Z.
Proof.
  split; [split; [exact Z_ltb_swo | reflexivity]|].
  apply (update_minmax_extends Z.ltb Z_ltb_swo 5 1 3)%Z. reflexivity.
Defined.

Lemma clamp_within_bounds_witness :
  (StrictWeakOrder Z.ltb /\ le_of Z.ltb 2 9)%Z
  /\ ((le_of Z.ltb 2 (clamp Z.ltb 11 2 9) /\ le_of Z.ltb (clamp Z.ltb 11 2 9) 9)
      /\ clamp Z.ltb 5 2 9 = 5
      /\ clamp Z.ltb 0 2 9 = 2
      /\ clamp Z.ltb 11 2 9 = 9)%Z.
Proof.
  assert (Hlu : le_of Z.ltb 2 9%Z) by reflexivity.
  split; [split; [exact Z_ltb_swo | exact Hlu]|].
  split; [exact (proj1 (clamp_within_bounds Z.ltb Z_ltb_swo 11 2 9 Hlu))%Z|].
  split; [apply (clamp_within_bounds Z.ltb Z_ltb_swo 5 2 9 Hlu)%Z; reflexivity|].
  split; [apply (clamp_within_bounds Z.ltb Z_ltb_swo 0 2 9 Hlu)%Z; reflexivity|].
  apply (clamp_within_bounds Z.ltb Z_ltb_swo 11 2 9 Hlu)%Z. reflexivity.
Defined.

(** ** Rational arithmetic *)

Local Open Scope Q_scope.

Lemma smooth_step_inside (r : Q) :
  0 <= r -> r <= 1 -> smooth_step_exact r == smooth_poly r.
Proof.
  intros H0 H1. unfold smooth_step_exact, smooth_poly.
  destruct (Qlt_le_dec r 0) as [H|_]; [lra|].
  destruct (Qlt_le_dec 1 r) as [H|_]; [lra|].
  ring.
Qed.

Lemma smooth_step_below (r : Q) : r < 0 -> smooth_step_exact r == 0.
Proof.
  intros H. unfold smooth_step_exact.
  destruct (Qlt_le_dec r 0) as [_|H']; [reflexivity | lra].
Qed.

Lemma smooth_step_above (r : Q) : 1 < r -> smooth_step_exact r == 1.
Proof.
  intros H. unfold smooth_step_exact.
  destruct (Qlt_le_dec r 0) as [H'|_]; [lra|].
  destruct (Qlt_le_dec 1 r) as [_|H']; [reflexivity | lra].
Qed.

Lemma Qsquare_nonneg (q : Q) : 0 <= q * q.
Proof. nra. Qed.

(** The increment of the polynomial over a step [h] is [h] times a sum of
    squares (the derivative [30 r^2 (1 - r)^2] integrated over the step). *)
Lemma smooth_poly_increment (a h : Q) :
  smooth_poly (a + h) - smooth_poly a ==
  h * (30 * ((a * (1 - a) + (1 # 2) * (h * (1 - 2 * a)) - (1 # 3) * (h * h))
             * (a * (1 - a) + (1 # 2) * (h * (1 - 2 * a)) - (1 # 3) * (h * h))
             + (1 # 12) * ((h * (1 - 2 * a) - h * h) * (h * (1 - 2 * a) - h * h))
             + (1 # 180) * ((h * h) * (h * h)))).
Proof. unfold smooth_poly. ring. Qed.

Lemma smooth_poly_monotone (a b : Q) : a <= b -> smooth_poly a <= smooth_poly b.
Proof.
  intros Hab.
  assert (E : smooth_poly b - smooth_poly a ==
              smooth_poly (a + (b - a)) - smooth_poly a).
  { unfold smooth_poly. ring. }
  rewrite smooth_poly_increment in E.
  pose proof (Qsquare_nonneg (a * (1 - a) + (1 # 2) * ((b - a) * (1 - 2 * a))
                              - (1 # 3) * ((b - a) * (b - a)))) as S1.
  pose proof (Qsquare_nonneg ((b - a) * (1 - 2 * a) - (b - a) * (b - a))) as S2.
  pose proof (Qsquare_nonneg ((b - a) * (b - a))) as S3.
  set (s1 := _ * _) in S1. set (s2 := _ * _) in S2. set (s3 := _ * _) in S3.
  fold s1 s2 s3 in E.
  assert (0 <= (b - a) * (30 * (s1 + (1 # 12) * s2 + (1 # 180) * s3))).
  { apply Qmult_le_0_compat; lra. }
  lra.
Qed.

Lemma float_above_1_not_negative (r : float) :
  (1 <? r)%float = true -> (r <? 0)%float = false.
Proof.
  rewrite !ltb_spec.
  replace (Prim2SF 1) with (S754_finite false 4503599627370496 (-52))
    by (vm_compute; reflexivity).
  replace (Prim2SF 0) with (S754_zero false) by (vm_compute; reflexivity).
  destruct (Prim2SF r) as [s|s| |s m e]; try destruct s; cbn;
    try discriminate; reflexivity.
Qed.

(** C2 (amended): smooth_step returns exactly 0 at r = 0 and exactly 1 at
    r = 1, and is clamped outside [0, 1] (0 for every r < 0, 1 for every
    r > 1), in binary64 as in exact arithmetic; on [0, 1] it evaluates
    r r r (10 + r (-15 + r 6)), which in exact arithmetic equals
    10r^3 - 15r^4 + 6r^5 and is non-decreasing. *)
Theorem smooth_step_clamped_exact_polynomial :
  ((forall r, (r <? 0)%float = true -> Binary64.smooth_step r = 0%float)
   /\ (forall r, (1 <? r)%float = true -> Binary64.smooth_step r = 1%float)
   /\ Binary64.smooth_step 0 = 0%float
   /\ Binary64.smooth_step 1 = 1%float)
  /\ (smooth_step_exact 0 == 0
      /\ smooth_step_exact 1 == 1
      /\ (forall r, r < 0 -> smooth_step_exact r == 0)
      /\ (forall r, 1 < r -> smooth_step_exact r == 1))
  /\ (forall r, 0 <= r -> r <= 1 ->
                smooth_step_exact r == 10 * r ^ 3 - 15 * r ^ 4 + 6 * r ^ 5)
  /\ (forall r1 r2, 0 <= r1 -> r1 <= r2 -> r2 <= 1 ->
                    smooth_step_exact r1 <= smooth_step_exact r2).
Proof.
  split; [|split; [|split]].
  - split; [|split; [|split]].
    + intros r H. unfold Binary64.smooth_step. rewrite H. reflexivity.
    + intros r H. unfold Binary64.smooth_step.
      rewrite (float_above_1_not_negative r H), H. reflexivity.
    + vm_compute. reflexivity.
    + vm_compute. reflexivity.
  - split; [reflexivity|]. split; [reflexivity|].
    split; [exact smooth_step_below | exact smooth_step_above].
  - exact smooth_step_inside.
  - intros r1 r2 H0 H12 H1.
    rewrite (smooth_step_inside r1), (smooth_step_inside r2) by lra.
    apply smooth_poly_monotone. assumption.
Qed.

Lemma smooth_step_clamped_exact_polynomial_witness :
  Binary64.smooth_step (-0.5) = 0%float
  /\ Binary64.smooth_step 1.5 = 1%float
  /\ smooth_step_exact (1 # 4) <= smooth_step_exact (3 # 4)
  /\ smooth_step_exact (1 # 2) == 1 # 2.
Proof.
  destruct smooth_step_clamped_exact_polynomial
    as [[Flo [Fhi _]] [_ [Hpoly Hmono]]].
  split; [apply Flo; vm_compute; reflexivity|].
  split; [apply Fhi; vm_compute; reflexivity|].
  split; [apply Hmono; discriminate|].
  rewrite Hpoly by discriminate. reflexivity.
Defined.

(** In binary64 smooth_step is not non-decreasing on [0, 1]: at
    r = 1 - 2^-26 its value is 1.0000000000000004, above its value 1 at
    r = 1. *)
Lemma smooth_step_binary64_not_monotone :
  (0 <=? 0x1.ffffff8p-1)%float = true
  /\ (0x1.ffffff8p-1 <=? 1)%float = true
  /\ Binary64.smooth_step 0x1.ffffff8p-1 = 0x1.0000000000002p+0%float
  /\ Binary64.smooth_step 1 = 1%float
  /\ (Binary64.smooth_step 1 <? Binary64.smooth_step 0x1.ffffff8p-1)%float
     = true.
Proof. repeat split; vm_compute; reflexivity. Qed.






(** C10: lerp returns its endpoints at the endpoint parameters:
    lerp(a, b, 0) is a and lerp(a, b, 1) is b. *)
Theorem lerp_endpoints (a b : Q) : lerp a b 0 == a /\ lerp a b 1 == b.
Proof. unfold lerp. split; ring. Qed.



(** The two copies of [smooth_stop5] differ by twice the eased term. *)
Lemma smooth_stop5_copies_gap (t b c d : Q) :
  smooth_stop5 t b c d - UtilH.smooth_stop5 t b c d
  == 2 * c * ((t / d - 1) * (t / d - 1) * (t / d - 1) * (t / d - 1) * (t / d - 1) + 1).
Proof. unfold smooth_stop5, UtilH.smooth_stop5. cbv zeta. ring. Qed.

(** C5: the two copies of smooth_stop5 are not equal: at t = 1, b = 0,
    c = 1, d = 1 (the end of the ease with the default offset, scale and
    duration) the copy of src/util.h returns -1 and the copy of
    src/unnamed/part_000 returns 1. *)
Theorem smooth_stop5_copies_differ :
  UtilH.smooth_stop5 1 0 1 1 == -1
  /\ smooth_stop5 1 0 1 1 == 1
  /\ ~ (forall t b c d, ~ d == 0 ->
          UtilH.smooth_stop5 t b c d == smooth_stop5 t b c d).
Proof.
  split; [reflexivity|]. split; [reflexivity|].
  intros H.
  assert (E : UtilH.smooth_stop5 1 0 1 1 == smooth_stop5 1 0 1 1)
    by (apply H; discriminate).
  discriminate E.
Qed.

(** What the slip costs: at the end of the ease, [t = d], the later copy
    reaches [b + c] and the copy of src/util.h reaches [b - c]; both start
    from [b] at [t = 0]. *)
Lemma smooth_stop5_endpoints (b c d : Q) :
  ~ d == 0 ->
  smooth_stop5 0 b c d == b
  /\ smooth_stop5 d b c d == b + c
  /\ UtilH.smooth_stop5 0 b c d == b
  /\ UtilH.smooth_stop5 d b c d == b - c.
Proof.
  intros Hd. unfold smooth_stop5, UtilH.smooth_stop5. cbv zeta.
  repeat split; field; assumption.
Qed.

(** * Further properties of the header *)

Local Open Scope Z_scope.

(** ** More on comparisons *)

Section ComparisonExtras.

Context {T : Type} (lt : T -> T -> bool).
Hypothesis lt_swo : StrictWeakOrder lt.

Local Notation "a <== b" := (le_of lt a b) (at level 70, no associativity).

Lemma std_min_first (m1 m2 : T) (l1 l2 : list T) :
  is_first_min_of lt m1 l1 -> is_first_min_of lt m2 l2 ->
  is_first_min_of lt (std_min lt m1 m2) (l1 ++ l2).
Proof.
  intros (p1 & q1 & E1 & B1 & A1) (p2 & q2 & E2 & B2 & A2).
  assert (M1 : forall x, In x l1 -> m1 <== x).
  { intros x Hx. subst l1. apply in_app_or in Hx. destruct Hx as [Hx|[<-|Hx]].
    - apply (swo_lt_le lt lt_swo). apply B1. assumption.
    - apply (swo_le_refl lt lt_swo).
    - apply A1. assumption. }
  assert (M2 : forall x, In x l2 -> m2 <== x).
  { intros x Hx. subst l2. apply in_app_or in Hx. destruct Hx as [Hx|[<-|Hx]].
    - apply (swo_lt_le lt lt_swo). apply B2. assumption.
    - apply (swo_le_refl lt lt_swo).
    - apply A2. assumption. }
  unfold std_min. destruct (lt m2 m1) eqn:E.
  - exists (l1 ++ p2), q2. split; [|split].
    + rewrite E2, app_assoc. reflexivity.
    + intros x Hx. apply in_app_or in Hx. destruct Hx as [Hx|Hx].
      * apply (swo_lt_le_trans lt lt_swo) with m1; [assumption | apply M1; assumption].
      * apply B2. assumption.
    + assumption.
  - exists p1, (q1 ++ l2). split; [|split].
    + rewrite E1, <- app_assoc. reflexivity.
    + assumption.
    + intros x Hx. apply in_app_or in Hx. destruct Hx as [Hx|Hx].
      * apply A1. assumption.
      * apply (swo_le_trans lt lt_swo) with m2; [exact E | apply M2; assumption].
Qed.

Lemma std_max_first (m1 m2 : T) (l1 l2 : list T) :
  is_first_max_of lt m1 l1 -> is_first_max_of lt m2 l2 ->
  is_first_max_of lt (std_max lt m1 m2) (l1 ++ l2).
Proof.
  intros (p1 & q1 & E1 & B1 & A1) (p2 & q2 & E2 & B2 & A2).
  assert (M1 : forall x, In x l1 -> x <== m1).
  { intros x Hx. subst l1. apply in_app_or in Hx. destruct Hx as [Hx|[<-|Hx]].
    - apply (swo_lt_le lt lt_swo). apply B1. assumption.
    - apply (swo_le_refl lt lt_swo).
    - apply A1. assumption. }
  assert (M2 : forall x, In x l2 -> x <== m2).
  { intros x Hx. subst l2. apply in_app_or in Hx. destruct Hx as [Hx|[<-|Hx]].
    - apply (swo_lt_le lt lt_swo). apply B2. assumption.
    - apply (swo_le_refl lt lt_swo).
    - apply A2. assumption. }
  unfold std_max. destruct (lt m1 m2) eqn:E.
  - exists (l1 ++ p2), q2. split; [|split].
    + rewrite E2, app_assoc. reflexivity.
    + intros x Hx. apply in_app_or in Hx. destruct Hx as [Hx|Hx].
      * apply (swo_le_lt_trans lt lt_swo) with m1; [apply M1; assumption | assumption].
      * apply B2. assumption.
    + assumption.
  - exists p1, (q1 ++ l2). split; [|split].
    + rewrite E1, <- app_assoc. reflexivity.
    + assumption.
    + intros x Hx. apply in_app_or in Hx. destruct Hx as [Hx|Hx].
      * apply A1. assumption.
      * apply (swo_le_trans lt lt_swo) with m2; [apply M2; assumption | exact E].
Qed.

Lemma first_min_single (a : T) : is_first_min_of lt a [a].
Proof. exists [], []. repeat split; intros x []. Qed.

Lemma first_max_single (a : T) : is_first_max_of lt a [a].
Proof. exists [], []. repeat split; intros x []. Qed.

Lemma std_min_first2 (a1 a2 : T) : is_first_min_of lt (std_min lt a1 a2) [a1; a2].
Proof. apply (std_min_first a1 a2 [a1] [a2]); apply first_min_single. Qed.

Lemma std_max_first2 (a1 a2 : T) : is_first_max_of lt (std_max lt a1 a2) [a1; a2].
Proof. apply (std_max_first a1 a2 [a1] [a2]); apply first_max_single. Qed.

Lemma min3_first (m1 m2 m3 : T) (l1 l2 l3 : list T) :
  is_first_min_of lt m1 l1 -> is_first_min_of lt m2 l2 ->
  is_first_min_of lt m3 l3 ->
  is_first_min_of lt (min3 lt m1 m2 m3) (l1 ++ l2 ++ l3).
Proof.
  intros H1 H2 H3. unfold min3.
  apply std_min_first; [|apply std_min_first]; assumption.
Qed.

Lemma max3_first (m1 m2 m3 : T) (l1 l2 l3 : list T) :
  is_first_max_of lt m1 l1 -> is_first_max_of lt m2 l2 ->
  is_first_max_of lt m3 l3 ->
  is_first_max_of lt (max3 lt m1 m2 m3) (l1 ++ l2 ++ l3).
Proof.
  intros H1 H2 H3. unfold max3.
  apply std_max_first; [|apply std_max_first]; assumption.
Qed.

(** The n-ary [min] overloads return the first of the smallest arguments. *)
Theorem min_returns_first_minimum :
  (forall a1 a2 a3, is_first_min_of lt (min3 lt a1 a2 a3) [a1; a2; a3])
  /\ (forall a1 a2 a3 a4,
        is_first_min_of lt (min4 lt a1 a2 a3 a4) [a1; a2; a3; a4])
  /\ (forall a1 a2 a3 a4 a5,
        is_first_min_of lt (min5 lt a1 a2 a3 a4 a5) [a1; a2; a3; a4; a5])
  /\ (forall a1 a2 a3 a4 a5 a6,
        is_first_min_of lt (min6 lt a1 a2 a3 a4 a5 a6)
                        [a1; a2; a3; a4; a5; a6]).
Proof.
  split; [|split; [|split]]; intros.
  - apply (min3_first _ _ _ [a1] [a2] [a3]); apply first_min_single.
  - apply (std_min_first _ _ [a1; a2] [a3; a4]); apply std_min_first2.
  - apply (min3_first _ _ _ [a1; a2] [a3; a4] [a5]);
      first [apply std_min_first2 | apply first_min_single].
  - apply (min3_first _ _ _ [a1; a2] [a3; a4] [a5; a6]); apply std_min_first2.
Qed.

(** The n-ary [max] overloads return the first of the largest arguments. *)
Theorem max_returns_first_maximum :
  (forall a1 a2 a3, is_first_max_of lt (max3 lt a1 a2 a3) [a1; a2; a3])
  /\ (forall a1 a2 a3 a4,
        is_first_max_of lt (max4 lt a1 a2 a3 a4) [a1; a2; a3; a4])
  /\ (forall a1 a2 a3 a4 a5,
        is_first_max_of lt (max5 lt a1 a2 a3 a4 a5) [a1; a2; a3; a4; a5])
  /\ (forall a1 a2 a3 a4 a5 a6,
        is_first_max_of lt (max6 lt a1 a2 a3 a4 a5 a6)
                        [a1; a2; a3; a4; a5; a6]).
Proof.
  split; [|split; [|split]]; intros.
  - apply (max3_first _ _ _ [a1] [a2] [a3]); apply first_max_single.
  - apply (std_max_first _ _ [a1; a2] [a3; a4]); apply std_max_first2.
  - apply (max3_first _ _ _ [a1; a2] [a3; a4] [a5]);
      first [apply std_max_first2 | apply first_max_single].
  - apply (max3_first _ _ _ [a1; a2] [a3; a4] [a5; a6]); apply std_max_first2.
Qed.

(** Closes a goal [a <== b] from the comparisons in the context. *)
Ltac order' :=
  unfold le_of in *;
  solve [ assumption
        | apply (lt_irrefl lt lt_swo)
        | apply (swo_lt_le lt lt_swo); assumption
        | eapply (swo_le_trans lt lt_swo); [eassumption|];
          first [assumption | apply (swo_lt_le lt lt_swo); assumption]
        | eapply (swo_le_trans lt lt_swo);
          [apply (swo_lt_le lt lt_swo); eassumption|];
          first [assumption | apply (swo_lt_le lt lt_swo); assumption] ].

(** [sort] leaves its three arguments in ascending order, and they are the
    arguments it was given. *)
Theorem sort_sorts (a b c : T) :
  let '(a', b', c') := sort lt a b c in
  a' <== b' /\ b' <== c' /\ Permutation [a; b; c] [a'; b'; c'].
Proof.
  unfold sort.
  destruct (lt a b) eqn:Eab; destruct (lt a c) eqn:Eac;
    destruct (lt c b) eqn:Ecb; destruct (lt b c) eqn:Ebc;
    (split; [try order' | split; [try order' |]]);
    eauto using Permutation_refl, perm_swap, perm_skip, perm_trans.
Qed.

(** One more value: a pair that is the minimum and maximum of the values
    seen stays so. *)
Lemma update_minmax_step (seen : list T) (a1 amin amax : T) :
  is_min_of lt amin seen -> is_max_of lt amax seen ->
  is_min_of lt (fst (update_minmax lt a1 amin amax)) (seen ++ [a1])
  /\ is_max_of lt (snd (update_minmax lt a1 amin amax)) (seen ++ [a1]).
Proof.
  intros [Imin Hmin] [Imax Hmax].
  assert (Hmm : amin <== amax) by (apply Hmin; assumption).
  unfold update_minmax.
  destruct (lt a1 amin) eqn:Elo; [|destruct (lt amax a1) eqn:Ehi];
    cbn [fst snd]; (split; (split;
      [ apply in_or_app; cbn [In]; tauto
      | intros x Hx; apply in_app_or in Hx; destruct Hx as [Hx|[<-|[]]] ])).
  all: try order'.
  all: try (specialize (Hmin x Hx); specialize (Hmax x Hx); order').
Qed.

Lemma update_minmax_all_inv (l seen : list T) (amin amax : T) :
  is_min_of lt amin seen -> is_max_of lt amax seen ->
  is_min_of lt (fst (update_minmax_all lt l amin amax)) (seen ++ l)
  /\ is_max_of lt (snd (update_minmax_all lt l amin amax)) (seen ++ l).
Proof.
  revert seen amin amax. induction l as [|a l IH]; intros seen amin amax Hmin Hmax.
  - rewrite app_nil_r. split; assumption.
  - unfold update_minmax_all. cbn [fold_left fst snd].
    destruct (update_minmax_step seen a amin amax Hmin Hmax) as [Hmin' Hmax'].
    replace (seen ++ a :: l) with ((seen ++ [a]) ++ l)
      by (rewrite <- app_assoc; reflexivity).
    specialize (IH (seen ++ [a]) _ _ Hmin' Hmax').
    unfold update_minmax_all in IH.
    destruct (update_minmax lt a amin amax) as [mn mx]. exact IH.
Qed.

(** Running [update_minmax] over a sequence of values, from the pair
    [(a0, a0)] of a first value, ends with the minimum and the maximum of
    all of them. *)
Theorem update_minmax_running (a0 : T) (l : list T) :
  is_min_of lt (fst (update_minmax_all lt l a0 a0)) (a0 :: l)
  /\ is_max_of lt (snd (update_minmax_all lt l a0 a0)) (a0 :: l).
Proof.
  apply (update_minmax_all_inv l [a0] a0 a0).
  - split; [left; reflexivity|]. intros x [<-|[]]. apply (swo_le_refl lt lt_swo).
  - split; [left; reflexivity|]. intros x [<-|[]]. apply (swo_le_refl lt lt_swo).
Qed.

(** With [lower <= upper], [clamp] is [min(max(a, lower), upper)], clamping
    twice is clamping once, and [clamp] keeps the order of its arguments. *)
Theorem clamp_min_max_idempotent_monotone (a b lower upper : T) :
  lower <== upper ->
  clamp lt a lower upper = std_min lt (std_max lt a lower) upper
  /\ clamp lt (clamp lt a lower upper) lower upper = clamp lt a lower upper
  /\ (a <== b -> clamp lt a lower upper <== clamp lt b lower upper).
Proof.
  intros Hlu. unfold clamp, std_min, std_max.
  destruct (lt a lower) eqn:Ea; [|destruct (lt upper a) eqn:Eua].
  - rewrite ?(lt_irrefl lt lt_swo). rewrite ?Hlu.
    split; [reflexivity|]. split; [reflexivity|].
    intros Hab. destruct (lt b lower) eqn:Eb; [order'|].
    destruct (lt upper b) eqn:Eub; order'.
  - assert (Eul : lt upper lower = false) by exact Hlu.
    rewrite ?Eul, ?(lt_irrefl lt lt_swo).
    split; [reflexivity|]. split; [reflexivity|].
    intros Hab. destruct (lt b lower) eqn:Eb.
    + exfalso. pose proof (swo_le_lt_trans lt lt_swo _ _ _ Hab Eb) as H.
      pose proof (swo_lt_le_trans lt lt_swo _ _ _ Eua Hab) as H1.
      pose proof (lt_trans lt lt_swo _ _ _ H1 Eb) as H2.
      unfold le_of in Hlu. congruence.
    + destruct (lt upper b) eqn:Eub; [order'|].
      exfalso. pose proof (swo_lt_le_trans lt lt_swo _ _ _ Eua Hab). congruence.
  - rewrite ?Ea, ?Eua. split; [reflexivity|]. split; [reflexivity|].
    intros Hab. destruct (lt b lower) eqn:Eb.
    + exfalso. pose proof (swo_le_lt_trans lt lt_swo _ _ _ Hab Eb). congruence.
    + destruct (lt upper b) eqn:Eub; order'.
Qed.

End ComparisonExtras.

Lemma min_returns_first_minimum_witness :
  StrictWeakOrder Z.ltb
  /\ is_first_min_of Z.ltb (min5 Z.ltb 3 1 2 1 7)%Z [3; 1; 2; 1; 7]%Z.
Proof.
  split; [exact Z_ltb_swo|].
  exact (proj1 (proj2 (proj2 (min_returns_first_minimum Z.ltb Z_ltb_swo)))
           3 1 2 1 7)%Z.
Defined.

Lemma max_returns_first_maximum_witness :
  StrictWeakOrder Z.ltb
  /\ is_first_max_of Z.ltb (max4 Z.ltb 3 7 2 7)%Z [3; 7; 2; 7]%Z.
Proof.
  split; [exact Z_ltb_swo|].
  exact (proj1 (proj2 (max_returns_first_maximum Z.ltb Z_ltb_swo)) 3 7 2 7)%Z.
Defined.

Lemma sort_sorts_witness :
  StrictWeakOrder Z.ltb
  /\ (let '(a', b', c') := sort Z.ltb 3 1 2 in
      le_of Z.ltb a' b' /\ le_of Z.ltb b' c'
      /\ Permutation [3; 1; 2] [a'; b'; c'])%Z.
Proof.
  split; [exact Z_ltb_swo | exact (sort_sorts Z.ltb Z_ltb_swo 3 1 2)%Z].
Defined.

Lemma update_minmax_running_witness :
  StrictWeakOrder Z.ltb
  /\ (is_min_of Z.ltb (fst (update_minmax_all Z.ltb [7; 1; 5] 4 4)) [4; 7; 1; 5]
      /\ is_max_of Z.ltb (snd (update_minmax_all Z.ltb [7; 1; 5] 4 4))
                   [4; 7; 1; 5])%Z.
Proof.
  split; [exact Z_ltb_swo|].
  exact (update_minmax_running Z.ltb Z_ltb_swo 4 [7; 1; 5])%Z.
Defined.

Lemma clamp_min_max_idempotent_monotone_witness :
  (StrictWeakOrder Z.ltb /\ le_of Z.ltb 2 9)%Z
  /\ (clamp Z.ltb 0 2 9 = std_min Z.ltb (std_max Z.ltb 0 2) 9
      /\ clamp Z.ltb (clamp Z.ltb 0 2 9) 2 9 = clamp Z.ltb 0 2 9
      /\ (le_of Z.ltb 0 11 ->
          le_of Z.ltb (clamp Z.ltb 0 2 9) (clamp Z.ltb 11 2 9)))%Z.
Proof.
  assert (Hlu : le_of Z.ltb 2 9%Z) by reflexivity.
  split; [split; [exact Z_ltb_swo | exact Hlu]|].
  exact (clamp_min_max_idempotent_monotone Z.ltb Z_ltb_swo 0 11 2 9 Hlu)%Z.
Defined.

Local Open Scope Z_scope.

(** ** More on power-of-two rounding *)

Lemma bit_length_shiftr (n : Z) :
  0 < n -> bit_length n = bit_length (Z.shiftr n 1) + 1.
Proof.
  intros Hn. unfold bit_length.
  destruct (Z.eqb_spec n 0) as [|_]; [lia|].
  rewrite Z.log2_shiftr by assumption.
  destruct (Z.eqb_spec (Z.shiftr n 1) 0) as [E|E].
  - apply Z.shiftr_eq_0_iff in E. pose proof (Z.log2_nonneg n). lia.
  - assert (1 <= Z.log2 n); [|lia].
    destruct (Z.le_gt_cases 1 (Z.log2 n)) as [H|H]; [assumption|].
    exfalso. apply E. apply Z.shiftr_eq_0_iff. right. split; assumption.
Qed.

Lemma log2_shiftr1 (n : Z) : 1 < n -> Z.log2 n = Z.log2 (Z.shiftr n 1) + 1.
Proof.
  intros Hn. rewrite Z.log2_shiftr by lia.
  pose proof (Z.log2_le_mono 2 n ltac:(lia)) as H2.
  change (Z.log2 2) with 1 in H2. lia.
Qed.

Lemma round_up_loop_S (fuel : nat) (n e : Z) :
  round_up_loop (S fuel) n e
  = if n =? 0 then Some e else round_up_loop fuel (Z.shiftr n 1) (e + 1).
Proof. reflexivity. Qed.

Lemma round_down_loop_S (fuel : nat) (n e : Z) :
  round_down_loop (S fuel) n e
  = if n >? 1 then round_down_loop fuel (Z.shiftr n 1) (e + 1) else Some e.
Proof. reflexivity. Qed.

Lemma round_up_loop_counts (k : nat) :
  forall n e, 0 <= n < 2 ^ Z.of_nat k ->
    round_up_loop (S k) n e = Some (e + bit_length n).
Proof.
  induction k as [|k IH]; intros n e Hn.
  - assert (n = 0) by (change (2 ^ Z.of_nat 0) with 1 in Hn; lia).
    subst n. cbn. f_equal. lia.
  - rewrite round_up_loop_S. destruct (Z.eqb_spec n 0) as [E|E].
    + subst n. f_equal. cbn. lia.
    + rewrite IH.
      * rewrite (bit_length_shiftr n) by lia. f_equal. lia.
      * apply shiftr1_bound; [lia|].
        replace (Z.of_nat k + 1) with (Z.of_nat (S k)) by lia. assumption.
Qed.

Lemma round_down_loop_counts (k : nat) :
  forall n e, 0 <= n < 2 ^ Z.of_nat k ->
    round_down_loop (S k) n e = Some (e + Z.log2 n).
Proof.
  induction k as [|k IH]; intros n e Hn.
  - assert (n = 0) by (change (2 ^ Z.of_nat 0) with 1 in Hn; lia).
    subst n. cbn. f_equal. lia.
  - rewrite round_down_loop_S. destruct (Z.gtb_spec n 1) as [E|E].
    + rewrite IH.
      * rewrite (log2_shiftr1 n) by lia. f_equal. lia.
      * apply shiftr1_bound; [lia|].
        replace (Z.of_nat k + 1) with (Z.of_nat (S k)) by lia. assumption.
    + f_equal. assert (n = 0 \/ n = 1) as [->| ->] by lia; cbn; lia.
Qed.

Lemma shl1_u32_pow2 (e : Z) : 0 <= e < 32 -> shl1_u32 e = Some (2 ^ e).
Proof.
  intros He. unfold shl1_u32, wrap32.
  destruct (Z.leb_spec 0 e); [|lia]. destruct (Z.ltb_spec e 32); [|lia].
  cbn [andb]. rewrite Z.shiftl_1_l. f_equal.
  apply Z.mod_small. split; [apply Z.pow_nonneg; lia|].
  apply Z.pow_lt_mono_r; lia.
Qed.

Lemma bit_length_bounds (m : Z) :
  0 < m -> 2 ^ (bit_length m - 1) <= m < 2 ^ bit_length m.
Proof.
  intros Hm. unfold bit_length. destruct (Z.eqb_spec m 0); [lia|].
  replace (Z.log2 m + 1 - 1) with (Z.log2 m) by lia.
  pose proof (Z.log2_spec m Hm). replace (Z.log2 m + 1) with (Z.succ (Z.log2 m)) by lia.
  assumption.
Qed.

(** For [1 <= n <= 2^31], [round_up_to_power_of_two] returns the least
    power of two that is at least [n]: a power [2^k] with [n <= 2^k < 2n]. *)
Theorem round_up_to_power_of_two_correct (n : Z) :
  1 <= n <= 2 ^ 31 ->
  exists k, 0 <= k <= 31
    /\ round_up_to_power_of_two n = Some (2 ^ k)
    /\ n <= 2 ^ k < 2 * n.
Proof.
  intros Hn. unfold round_up_to_power_of_two, loop_fuel. cbv zeta.
  assert (Hw : wrap32 (n - 1) = n - 1).
  { unfold wrap32. apply Z.mod_small. lia. }
  rewrite Hw, (round_up_loop_counts 32) by (change (2 ^ Z.of_nat 32) with (2 ^ 32); lia).
  destruct (Z.eq_dec n 1) as [->|Hn1].
  - exists 0. change (2 ^ 0) with 1.
    split; [lia|]. split; [reflexivity | lia].
  - exists (bit_length (n - 1)). rewrite Z.add_0_l.
    pose proof (bit_length_bounds (n - 1) ltac:(lia)) as [Hlo Hhi].
    assert (Hpos : 0 <= Z.log2 (n - 1)) by apply Z.log2_nonneg.
    assert (Hk : 1 <= bit_length (n - 1) <= 31).
    { unfold bit_length in *. destruct (Z.eqb_spec (n - 1) 0); [lia|].
      split; [lia|].
      assert (Z.log2 (n - 1) < 31); [|lia].
      apply Z.log2_lt_pow2; lia. }
    rewrite shl1_u32_pow2 by lia.
    split; [lia|]. split; [reflexivity|].
    assert (E : 2 ^ bit_length (n - 1) = 2 * 2 ^ (bit_length (n - 1) - 1)).
    { rewrite <- Z.pow_succ_r by lia. f_equal. lia. }
    rewrite E in *. lia.
Qed.

Lemma round_up_to_power_of_two_correct_witness :
  1 <= 5 <= 2 ^ 31
  /\ exists k, 0 <= k <= 31
       /\ round_up_to_power_of_two 5 = Some (2 ^ k)
       /\ 5 <= 2 ^ k < 2 * 5.
Proof.
  assert (H : 1 <= 5 <= 2 ^ 31) by (split; discriminate).
  split; [exact H | exact (round_up_to_power_of_two_correct 5 H)].
Defined.

(** For every [n >= 1] of 32 bits, [round_down_to_power_of_two] returns the
    greatest power of two that is at most [n]. *)
Theorem round_down_to_power_of_two_correct (n : Z) :
  1 <= n < 2 ^ 32 ->
  exists k, 0 <= k <= 31
    /\ round_down_to_power_of_two n = Some (2 ^ k)
    /\ 2 ^ k <= n < 2 ^ (k + 1).
Proof.
  intros Hn. unfold round_down_to_power_of_two, loop_fuel. cbv zeta.
  rewrite (round_down_loop_counts 32) by (change (2 ^ Z.of_nat 32) with (2 ^ 32); lia).
  rewrite Z.add_0_l. exists (Z.log2 n).
  assert (Hk : 0 <= Z.log2 n < 32).
  { split; [apply Z.log2_nonneg|]. apply Z.log2_lt_pow2; lia. }
  rewrite shl1_u32_pow2 by lia.
  split; [lia|]. split; [reflexivity|].
  pose proof (Z.log2_spec n ltac:(lia)).
  replace (Z.log2 n + 1) with (Z.succ (Z.log2 n)) by lia. assumption.
Qed.

Lemma round_down_to_power_of_two_correct_witness :
  1 <= 5 < 2 ^ 32
  /\ exists k, 0 <= k <= 31
       /\ round_down_to_power_of_two 5 = Some (2 ^ k)
       /\ 2 ^ k <= 5 < 2 ^ (k + 1).
Proof.
  assert (H : 1 <= 5 < 2 ^ 32) by (split; [discriminate | reflexivity]).
  split; [exact H | exact (round_down_to_power_of_two_correct 5 H)].
Defined.

(** The loop of [intlog2] is the loop of [round_up_to_power_of_two]. *)
Lemma intlog2_loop_round_up_loop (fuel : nat) :
  forall x e, intlog2_loop fuel x e = round_up_loop fuel x e.
Proof.
  induction fuel as [|fuel IH]; intros x e; [reflexivity|].
  cbn [intlog2_loop round_up_loop]. rewrite IH. reflexivity.
Qed.

(** [intlog2] of a positive [int] is the floor of its binary logarithm, and
    [intlog2(0)] is -1. *)
Theorem intlog2_is_log2 (x : Z) :
  0 <= x < 2 ^ 31 ->
  intlog2 x = Some (if x =? 0 then -1 else Z.log2 x).
Proof.
  intros Hx. unfold intlog2, loop_fuel. cbv zeta.
  rewrite intlog2_loop_round_up_loop.
  rewrite (round_up_loop_counts 32) by (change (2 ^ Z.of_nat 32) with (2 ^ 32); lia).
  unfold bit_length. destruct (x =? 0); f_equal; lia.
Qed.

Lemma intlog2_is_log2_witness :
  0 <= 10 < 2 ^ 31 /\ intlog2 10 = Some (if 10 =? 0 then -1 else Z.log2 10).
Proof.
  assert (H : 0 <= 10 < 2 ^ 31) by (split; [discriminate | reflexivity]).
  split; [exact H | exact (intlog2_is_log2 10 H)].
Defined.

(** On a negative [int] the loop of [intlog2] never ends: the arithmetic
    right shift keeps [x] negative, whatever the number of iterations. *)
Theorem intlog2_negative_diverges (fuel : nat) (x exp : Z) :
  x < 0 -> intlog2_loop fuel x exp = None.
Proof.
  revert x exp. induction fuel as [|fuel IH]; intros x exp Hx; [reflexivity|].
  cbn [intlog2_loop]. destruct (Z.eqb_spec x 0); [lia|].
  apply IH. apply Z.shiftr_neg. assumption.
Qed.

Lemma intlog2_negative_diverges_witness :
  -1 < 0 /\ intlog2_loop 100 (-1) (-1) = None.
Proof.
  assert (H : -1 < 0) by reflexivity.
  split; [exact H | exact (intlog2_negative_diverges 100 (-1) (-1) H)].
Defined.

(** ** More on Morton codes *)

Lemma interleave_even_bits (f g : bits) (i : Z) :
  0 <= i < 32 -> code_bits (low32 f) (low32 g) (2 * i) = f i.
Proof.
  revert i. apply bits_below_32. intros k Hk.
  do 32 (destruct k as [|k]; [ vm_compute; destruct (f _); reflexivity | ]).
  exfalso; lia.
Qed.

Lemma interleave_odd_bits (f g : bits) (i : Z) :
  0 <= i < 32 -> code_bits (low32 f) (low32 g) (2 * i + 1) = g i.
Proof.
  revert i. apply bits_below_32. intros k Hk.
  do 32 (destruct k as [|k]; [ vm_compute; destruct (g _); reflexivity | ]).
  exfalso; lia.
Qed.

(** The code interleaves the coordinates: bit [2i] of the code is bit [i]
    of [x] and bit [2i + 1] is bit [i] of [y]. *)
Theorem morton_xy2d_interleaves (x y i : Z) :
  0 <= x < 2 ^ 32 -> 0 <= y < 2 ^ 32 -> 0 <= i < 32 ->
  Z.testbit (morton_xy2d x y) (2 * i) = Z.testbit x i
  /\ Z.testbit (morton_xy2d x y) (2 * i + 1) = Z.testbit y i.
Proof.
  intros Hx Hy Hi. rewrite !(testbit_morton_code x y Hx Hy).
  split; [apply interleave_even_bits | apply interleave_odd_bits]; assumption.
Qed.

Lemma morton_xy2d_interleaves_witness :
  (0 <= 0xDEADBEEF < 2 ^ 32 /\ 0 <= 0x12345678 < 2 ^ 32 /\ 0 <= 5 < 32)
  /\ Z.testbit (morton_xy2d 0xDEADBEEF 0x12345678) (2 * 5)
     = Z.testbit 0xDEADBEEF 5
  /\ Z.testbit (morton_xy2d 0xDEADBEEF 0x12345678) (2 * 5 + 1)
     = Z.testbit 0x12345678 5.
Proof.
  assert (Hx : 0 <= 0xDEADBEEF < 2 ^ 32) by (split; [discriminate | reflexivity]).
  assert (Hy : 0 <= 0x12345678 < 2 ^ 32) by (split; [discriminate | reflexivity]).
  assert (Hi : 0 <= 5 < 32) by (split; [discriminate | reflexivity]).
  split; [split; [exact Hx | split; [exact Hy | exact Hi]]|].
  exact (morton_xy2d_interleaves _ _ _ Hx Hy Hi).
Defined.

Lemma bits_below_64 (P : Z -> Prop) :
  (forall k : nat, (k < 64)%nat -> P (Z.of_nat k)) ->
  forall n, 0 <= n < 64 -> P n.
Proof.
  intros H n Hn. rewrite <- (Z2Nat.id n) by lia. apply H. lia.
Qed.

Lemma encode_decoded_bits (f : bits) (n : Z) :
  0 <= n < 64 ->
  code_bits (morton_1_bits f) (morton_1_bits (shr1_bits f)) n = f n.
Proof.
  revert n. apply bits_below_64. intros k Hk.
  do 64 (destruct k as [|k]; [ vm_compute; destruct (f _); reflexivity | ]).
  exfalso; lia.
Qed.

Lemma code_bits_high (bx by_ : bits) (n : Z) :
  64 <= n -> code_bits bx by_ n = false.
Proof.
  intros Hn. unfold code_bits, spread_bits, spread_stage.
  assert (M : Z.testbit 0x5555555555555555 n = false).
  { apply Z.bits_above_log2; [discriminate|].
    apply Z.lt_le_trans with 64; [reflexivity | assumption]. }
  rewrite M.
  destruct (Z.ltb_spec n 64); [lia | reflexivity].
Qed.

(** Encoding what [morton_d2xy] decodes gives back the code, for every
    64-bit code: the two functions are inverse bijections between codes and
    pairs of 32-bit coordinates. *)
Theorem morton_xy2d_of_d2xy (d : Z) :
  0 <= d < 2 ^ 64 ->
  morton_xy2d (fst (morton_d2xy d)) (snd (morton_d2xy d)) = d.
Proof.
  intros Hd. unfold morton_d2xy. cbn [fst snd].
  apply Z.bits_inj'. intros n Hn. rewrite testbit_morton_xy2d.
  destruct (Z.lt_ge_cases n 64) as [H|H].
  - rewrite (code_bits_ext _ (morton_1_bits (Z.testbit d))
               _ (morton_1_bits (shr1_bits (Z.testbit d)))).
    + apply encode_decoded_bits. lia.
    + apply testbit_morton_1. reflexivity.
    + apply testbit_morton_1. apply testbit_shr1.
  - rewrite code_bits_high by assumption.
    rewrite <- (Z.mod_small d (2 ^ 64)) by assumption.
    symmetry. apply Z.mod_pow2_bits_high. lia.
Qed.

Lemma morton_xy2d_of_d2xy_witness :
  0 <= 0xFEDCBA9876543210 < 2 ^ 64
  /\ morton_xy2d (fst (morton_d2xy 0xFEDCBA9876543210))
                 (snd (morton_d2xy 0xFEDCBA9876543210))
     = 0xFEDCBA9876543210.
Proof.
  assert (H : 0 <= 0xFEDCBA9876543210 < 2 ^ 64)
    by (split; [discriminate | reflexivity]).
  split; [exact H | exact (morton_xy2d_of_d2xy _ H)].
Defined.

Local Open Scope Q_scope.

(** ** More on the easing curves *)

Lemma Qltb_lt (a b : Q) : Qltb a b = true <-> a < b.
Proof.
  unfold Qltb. destruct (Qlt_le_dec a b) as [H|H]; split; intros H';
    try assumption; try reflexivity; try discriminate. lra.
Qed.

Lemma Qltb_ge (a b : Q) : Qltb a b = false <-> b <= a.
Proof.
  unfold Qltb. destruct (Qlt_le_dec a b) as [H|H]; split; intros H';
    try assumption; try reflexivity; try discriminate. lra.
Qed.



Lemma Qltb_swo : StrictWeakOrder Qltb.
Proof.
  split.
  - intros a. apply Qltb_ge. lra.
  - intros a b c Hab Hbc. apply Qltb_lt in Hab, Hbc. apply Qltb_lt. lra.
  - intros a b c Hab Hbc. apply Qltb_ge in Hab, Hbc. apply Qltb_ge. lra.
Qed.


Lemma Qdiv_between_0_1 (a b : Q) : 0 <= a -> a <= b -> 0 < b ->
  0 <= a / b /\ a / b <= 1.
Proof.
  intros Ha Hab Hb. split.
  - apply Qle_shift_div_l; [assumption | lra].
  - apply Qle_shift_div_r; [assumption | lra].
Qed.





(** [sgn] is -1, 0 or 1 with the sign of its argument, and multiplies the
    absolute value back to the argument. *)
Theorem sgn_sign (x : Q) :
  (x < 0 -> sgn x == -1)
  /\ (x == 0 -> sgn x == 0)
  /\ (0 < x -> sgn x == 1)
  /\ sgn x * Qabs x == x
  /\ sgn (- x) == - sgn x.
Proof.
  unfold sgn.
  destruct (Qltb 0 x) eqn:E1; destruct (Qltb x 0) eqn:E2;
    destruct (Qltb 0 (- x)) eqn:E3; destruct (Qltb (- x) 0) eqn:E4;
    try apply Qltb_lt in E1; try apply Qltb_ge in E1;
    try apply Qltb_lt in E2; try apply Qltb_ge in E2;
    try apply Qltb_lt in E3; try apply Qltb_ge in E3;
    try apply Qltb_lt in E4; try apply Qltb_ge in E4; try lra.
  - repeat split; try (intros; lra).
    rewrite Qabs_pos by lra. ring.
  - repeat split; try (intros; lra).
    rewrite Qabs_neg by lra. ring.
Qed.

(** [saturate] is [clamp] to [0, 1]: its value lies in [0, 1] and is the
    argument itself when that lies in [0, 1]. *)
Theorem saturate_is_clamp (v : Q) :
  saturate v = clamp Qltb v 0 1
  /\ (0 <= saturate v /\ saturate v <= 1)
  /\ (0 <= v -> v <= 1 -> saturate v = v).
Proof.
  unfold saturate, clamp, std_max, std_min. cbv zeta.
  destruct (Qltb v 0) eqn:E0.
  - apply Qltb_lt in E0. change (Qltb 1 0) with false. cbv iota.
    repeat split; try lra; intros; lra.
  - apply Qltb_ge in E0. destruct (Qltb 1 v) eqn:E1.
    + apply Qltb_lt in E1. repeat split; try lra; intros; lra.
    + apply Qltb_ge in E1. repeat split; try lra; intros; reflexivity.
Qed.

(** ** More on interpolation *)

(** [bilerp] and [trilerp] return the corner values at the corners of the
    unit square and cube. *)
Theorem bilerp_trilerp_corners
  (v000 v100 v010 v110 v001 v101 v011 v111 : Q) :
  (bilerp v000 v100 v010 v110 0 0 == v000
   /\ bilerp v000 v100 v010 v110 1 0 == v100
   /\ bilerp v000 v100 v010 v110 0 1 == v010
   /\ bilerp v000 v100 v010 v110 1 1 == v110)
  /\ (trilerp v000 v100 v010 v110 v001 v101 v011 v111 0 0 0 == v000
      /\ trilerp v000 v100 v010 v110 v001 v101 v011 v111 1 0 0 == v100
      /\ trilerp v000 v100 v010 v110 v001 v101 v011 v111 0 1 0 == v010
      /\ trilerp v000 v100 v010 v110 v001 v101 v011 v111 1 1 0 == v110
      /\ trilerp v000 v100 v010 v110 v001 v101 v011 v111 0 0 1 == v001
      /\ trilerp v000 v100 v010 v110 v001 v101 v011 v111 1 0 1 == v101
      /\ trilerp v000 v100 v010 v110 v001 v101 v011 v111 0 1 1 == v011
      /\ trilerp v000 v100 v010 v110 v001 v101 v011 v111 1 1 1 == v111).
Proof.
  unfold trilerp, bilerp, lerp. repeat split; ring.
Qed.

Lemma cubic_pulse_inside (c w x : Q) :
  Qabs (x - c) <= w ->
  cubic_pulse c w x
  == 1 - (Qabs (x - c) / w) * (Qabs (x - c) / w) * (3 - 2 * (Qabs (x - c) / w)).
Proof.
  intros H. unfold cubic_pulse. cbv zeta.
  destruct (Qltb w (Qabs (x - c))) eqn:E; [|reflexivity].
  apply Qltb_lt in E. lra.
Qed.

Lemma cubic_pulse_outside (c w x : Q) :
  w < Qabs (x - c) -> cubic_pulse c w x == 0.
Proof.
  intros H. unfold cubic_pulse. cbv zeta.
  destruct (Qltb w (Qabs (x - c))) eqn:E; [reflexivity|].
  apply Qltb_ge in E. lra.
Qed.

Lemma cubic_pulse_by_distance (c w x x' : Q) :
  Qabs (x - c) == Qabs (x' - c) -> cubic_pulse c w x == cubic_pulse c w x'.
Proof.
  intros E. destruct (Qlt_le_dec w (Qabs (x - c))) as [H|H].
  - rewrite !cubic_pulse_outside by lra. reflexivity.
  - rewrite !cubic_pulse_inside by lra. rewrite E. reflexivity.
Qed.

(** For a width [w > 0], [cubic_pulse] is 1 at the centre [c], 0 at the
    distance [w] from it and beyond, the same on both sides of [c], and
    never leaves [0, 1]. *)
Theorem cubic_pulse_shape (c w x : Q) :
  0 < w ->
  cubic_pulse c w c == 1
  /\ (w <= Qabs (x - c) -> cubic_pulse c w x == 0)
  /\ cubic_pulse c w (c + (c - x)) == cubic_pulse c w x
  /\ (0 <= cubic_pulse c w x /\ cubic_pulse c w x <= 1).
Proof.
  intros Hw. split; [|split; [|split]].
  - rewrite cubic_pulse_inside.
    + assert (E : c - c == 0) by ring. rewrite E. cbn [Qabs Z.abs Qnum Qden].
      field. lra.
    + assert (E : c - c == 0) by ring. rewrite E. cbn [Qabs Z.abs Qnum Qden].
      lra.
  - intros H. destruct (Qlt_le_dec w (Qabs (x - c))) as [L|L].
    + apply cubic_pulse_outside. assumption.
    + rewrite cubic_pulse_inside by assumption.
      assert (E : Qabs (x - c) == w) by lra. rewrite E. field. lra.
  - apply cubic_pulse_by_distance.
    assert (E : c + (c - x) - c == - (x - c)) by ring.
    rewrite E. apply Qabs_opp.
  - destruct (Qlt_le_dec w (Qabs (x - c))) as [L|L].
    + rewrite cubic_pulse_outside by assumption. lra.
    + rewrite cubic_pulse_inside by assumption.
      pose proof (Qabs_nonneg (x - c)) as Hn.
      destruct (Qdiv_between_0_1 (Qabs (x - c)) w Hn L Hw) as [U0 U1].
      set (u := Qabs (x - c) / w) in *.
      assert (E : 1 - u * u * (3 - 2 * u) == (1 - u) * (1 - u) * (1 + 2 * u))
        by ring.
      assert (P1 : 0 <= (1 - u) * (1 - u) * (1 + 2 * u)).
      { apply Qmult_le_0_compat; [apply Qsquare_nonneg | lra]. }
      assert (P2 : 0 <= u * u * (3 - 2 * u)).
      { apply Qmult_le_0_compat; [apply Qsquare_nonneg | lra]. }
      split; lra.
Qed.

Lemma cubic_pulse_shape_witness :
  0 < 2
  /\ cubic_pulse 0 2 0 == 1
  /\ cubic_pulse 0 2 3 == 0
  /\ cubic_pulse 0 2 (0 + (0 - 1)) == cubic_pulse 0 2 1
  /\ 0 <= cubic_pulse 0 2 1 /\ cubic_pulse 0 2 1 <= 1.
Proof.
  assert (H : 0 < 2) by reflexivity.
  split; [exact H|].
  split; [apply (cubic_pulse_shape 0 2 0 H)|].
  split; [apply (cubic_pulse_shape 0 2 3 H); discriminate|].
  split; apply (cubic_pulse_shape 0 2 1 H).
Defined.

(** Every [smooth_start] and [smooth_stop] curve starts from [b] at
    [t = 0] and reaches [b + c] at [t = d]. *)
Theorem smooth_start_stop_endpoints (b c d : Q) :
  ~ d == 0 ->
  (smooth_start2 0 b c d == b /\ smooth_start2 d b c d == b + c)
  /\ (smooth_start3 0 b c d == b /\ smooth_start3 d b c d == b + c)
  /\ (smooth_start4 0 b c d == b /\ smooth_start4 d b c d == b + c)
  /\ (smooth_start5 0 b c d == b /\ smooth_start5 d b c d == b + c)
  /\ (smooth_stop2 0 b c d == b /\ smooth_stop2 d b c d == b + c)
  /\ (smooth_stop3 0 b c d == b /\ smooth_stop3 d b c d == b + c)
  /\ (smooth_stop4 0 b c d == b /\ smooth_stop4 d b c d == b + c)
  /\ (smooth_stop5 0 b c d == b /\ smooth_stop5 d b c d == b + c).
Proof.
  intros Hd.
  unfold smooth_start2, smooth_start3, smooth_start4, smooth_start5,
    smooth_stop2, smooth_stop3, smooth_stop4, smooth_stop5. cbv zeta.
  repeat split; field; assumption.
Qed.

Lemma smooth_start_stop_endpoints_witness :
  ~ 3 == 0
  /\ (smooth_start3 0 1 2 3 == 1 /\ smooth_start3 3 1 2 3 == 1 + 2)
  /\ (smooth_stop4 0 1 2 3 == 1 /\ smooth_stop4 3 1 2 3 == 1 + 2).
Proof.
  assert (H : ~ 3 == 0) by discriminate.
  split; [exact H|].
  split; apply (smooth_start_stop_endpoints 1 2 3 H).
Defined.
